(** * libpersist: the build script [bindings/python/setup.py]

    The script is a straight-line program over the process environment
    [os.environ]: it pins the compiler, defaults [DESTDIR], computes two flag
    lists and hands them to [setup(...)].  The environment is a finite map from
    variable names to values; the script is embedded as a function from the
    environment it is started in to the environment it leaves and the
    arguments it gives to [setup].

    [os.path.expandvars] is the one library routine whose result the flag
    lists depend on.  It is embedded from CPython's [posixpath.expandvars]
    (the script selects [clang] and passes [-Wl,-rpath], so the POSIX flavour
    of [os.path] is the one in use). *)

From Stdlib Require Import Ascii String.
From stdpp Require Import base option list strings gmap.

(** ** [posixpath.expandvars] *)

Module Posixpath.

Local Open Scope char_scope.

(** The class [\w] of the pattern, compiled with [re.ASCII]: [[a-zA-Z0-9_]]. *)
Definition is_word (c : ascii) : bool :=
  (("a" <=? c) && (c <=? "z")) || (("A" <=? c) && (c <=? "Z"))
  || (("0" <=? c) && (c <=? "9")) || (c =? "_").

(** [\w*] at the head of [s], greedy: the word and what follows it. *)
Fixpoint take_word (s : string) : string * string :=
  match s with
  | EmptyString => (EmptyString, EmptyString)
  | String c r =>
      if is_word c then let '(w, tl) := take_word r in (String c w, tl)
      else (EmptyString, s)
  end.

(** [[^}]*\}] at the head of [s]: the text before the first closing brace and
    what follows that brace; no match when [s] has no closing brace. *)
Fixpoint take_braced (s : string) : option (string * string) :=
  match s with
  | EmptyString => None
  | String c r =>
      if c =? "}" then Some (EmptyString, r)
      else match take_braced r with
           | Some (inner, tl) => Some (String c inner, tl)
           | None => None
           end
  end.

(** The pattern [\$(\w+|\{[^}]*\})] anchored at the head of [s]: group 1 and
    the text after the match. *)
Definition match_here (s : string) : option (string * string) :=
  match s with
  | String "$" r =>
      match take_word r with
      | (String c w, tl) => Some (String c w, tl)
      | (EmptyString, _) =>
          match r with
          | String "{" r' =>
              match take_braced r' with
              | Some (inner, tl) =>
                  Some (String "{" (inner +:+ String "}" EmptyString), tl)
              | None => None
              end
          | _ => None
          end
      end
  | _ => None
  end.

(** [_varprog.search]: the leftmost match in [s], as the text before the
    match, group 1, and the text after the match. *)
Fixpoint search (s : string) : option (string * string * string) :=
  match s with
  | EmptyString => None
  | String c r =>
      match match_here s with
      | Some (g, tl) => Some (EmptyString, g, tl)
      | None =>
          match search r with
          | Some (pre, g, tl) => Some (String c pre, g, tl)
          | None => None
          end
      end
  end.

Definition startswith (p s : string) : bool := String.prefix p s.

Definition endswith (p s : string) : bool :=
  String.eqb
    (String.substring (String.length s - String.length p) (String.length p) s)
    p.

(** [if name.startswith('{') and name.endswith('}'): name = name[1:-1]] *)
Definition var_name (g : string) : string :=
  if startswith "{" g && endswith "}" g
  then String.substring 1 (String.length g - 2) g
  else g.

(** ['$' not in path] *)
Fixpoint has_dollar (s : string) : bool :=
  match s with
  | EmptyString => false
  | String c r => (c =? "$") || has_dollar r
  end.

(** The [while True] loop.  [done] is [path[:i]] and [rest] is [path[i:]]:
    a reference whose name is a key of the environment is replaced by the
    value, which is not scanned again ([i = len(path)] after the
    replacement); on [KeyError] the reference is left as it is written
    ([i = j]).  Every match is at least two characters long, so [fuel] equal
    to the length of the text never runs out. *)
Fixpoint expand_loop (fuel : nat) (environ : gmap string string)
    (done rest : string) : string :=
  match fuel with
  | O => done +:+ rest
  | S fuel' =>
      match search rest with
      | None => done +:+ rest
      | Some (pre, g, tl) =>
          match environ !! var_name g with
          | Some value => expand_loop fuel' environ (done +:+ pre +:+ value) tl
          | None =>
              expand_loop fuel' environ
                (done +:+ pre +:+ String "$" g) tl
          end
      end
  end.

(** ['}' not in s]: the texts a braced reference can enclose. *)
Fixpoint has_rbrace (s : string) : bool :=
  match s with
  | EmptyString => false
  | String c r => (c =? "}") || has_rbrace r
  end.

Definition expandvars (environ : gmap string string) (path : string) : string :=
  if has_dollar path
  then expand_loop (String.length path) environ EmptyString path
  else path.

(** The texts the pattern [\w+] matches whole, and the texts at which such a
    match must stop: the end of the text or a character outside [\w]. *)
Fixpoint all_word (s : string) : bool :=
  match s with
  | EmptyString => true
  | String c r => is_word c && all_word r
  end.

Definition word_ends (s : string) : bool :=
  match s with
  | EmptyString => true
  | String c _ => negb (is_word c)
  end.

Local Close Scope char_scope.

End Posixpath.

(** ** The environment operations the script uses *)

(** [os.environ[k] = v] *)
Definition setitem (k v : string) (environ : gmap string string)
  : gmap string string := <[k:=v]> environ.

(** [os.environ.setdefault(k, d)] *)
Definition setdefault (k d : string) (environ : gmap string string)
  : gmap string string :=
  match environ !! k with
  | Some _ => environ
  | None => <[k:=d]> environ
  end.

(** [k in os.environ] *)
Definition contains (k : string) (environ : gmap string string) : bool :=
  match environ !! k with
  | Some _ => true
  | None => false
  end.

(** ** The arguments of [setup] *)

Inductive command := build_ext.

Record Extension := {
  ext_name : string;
  ext_sources : list string;
  extra_compile_args : list string;
  extra_link_args : list string
}.

Record setup_args := {
  name : string;
  version : string;
  packages : list string;
  package_data : list (string * list string);
  cmdclass : list (string * command);
  ext_modules : list Extension
}.

(** ** The script *)

(** The variables of the script that outlive a line. *)
Record state := {
  environ : gmap string string;
  cflags : list string;
  ldflags : list string
}.

(** Lines 36-37: the two writes to [os.environ]. *)
Definition configure (environ0 : gmap string string) : gmap string string :=
  setdefault "DESTDIR" "/" (setitem "CC" "clang" environ0).

(** Lines 38-39. *)
Definition cflags_base : list string :=
  ["-fblocks"; "-Wno-sometimes-uninitialized"].

Definition ldflags_base : list string := ["-g"; "-lpersist"; "-lrpc"].

(** Lines 36-51: the state in which [setup] is called, from the environment
    the script is started in.  The test of line 42 and the five calls of
    [expandvars] read the environment as lines 36-37 have left it. *)
Definition run (environ0 : gmap string string) : state :=
  let environ := configure environ0 in
  let cflags := cflags_base in
  let ldflags := ldflags_base in
  if contains "CMAKE_SOURCE_DIR" environ
  then {| environ := environ;
          cflags := cflags ++
            [Posixpath.expandvars environ "-I${CMAKE_SOURCE_DIR}/include";
             Posixpath.expandvars environ "-I../../include/"];
          ldflags := ldflags ++
            [Posixpath.expandvars environ "-L../..";
             Posixpath.expandvars environ "-Wl,-rpath";
             Posixpath.expandvars environ "-Wl,${CMAKE_PREFIX}/lib"] |}
  else {| environ := environ; cflags := cflags; ldflags := ldflags |}.

(** Lines 61-66: the [Extension(...)] expression. *)
Definition extension (st : state) : Extension :=
  {| ext_name := "persist";
     ext_sources := ["persist.pyx"];
     extra_compile_args := cflags st;
     extra_link_args := ldflags st |}.

(** Lines 54-67: the arguments of the call of [setup]. *)
Definition setup_call (st : state) : setup_args :=
  {| name := "persist";
     version := "1.0";
     packages := [""];
     package_data := [("", ["*.html"; "*.c"; "persist.pxd"])];
     cmdclass := [("build_ext", build_ext)];
     ext_modules := [extension st] |}.

(** The whole script: the environment it leaves and the call it makes. *)
Definition script (environ0 : gmap string string)
  : gmap string string * setup_args :=
  let st := run environ0 in (environ st, setup_call st).

(** What a run shows: the environment after the script, the extension
    modules it declares, and the flag lists each of them is given. *)
Definition final_environ (environ0 : gmap string string) : gmap string string :=
  fst (script environ0).

Definition declared (environ0 : gmap string string) : list Extension :=
  ext_modules (snd (script environ0)).

Definition compile_flags (environ0 : gmap string string) : list string :=
  extra_compile_args (extension (run environ0)).

Definition link_flags (environ0 : gmap string string) : list string :=
  extra_link_args (extension (run environ0)).

(** Two environments that differ at most in the variable [k]. *)
Definition differ_only_at (k : string) (e1 e2 : gmap string string) : Prop :=
  ∀ k', k' ≠ k → e1 !! k' = e2 !! k'.

(** Environments the statements below are run on. *)
Definition env_plain : gmap string string :=
  {[ "CMAKE_PREFIX" := "/usr/local"; "DESTDIR" := "/tmp/stage" ]}.

Definition env_cmake : gmap string string :=
  {[ "CMAKE_SOURCE_DIR" := "/src/libpersist"; "CMAKE_PREFIX" := "/usr/local" ]}.

Definition env_no_prefix : gmap string string :=
  {[ "CMAKE_SOURCE_DIR" := "/src/libpersist" ]}.

Definition env_empty_dir : gmap string string :=
  {[ "CMAKE_SOURCE_DIR" := "" ]}.

(** ** Strings *)

Lemma app_nil_l (s : string) : "" +:+ s = s.
Proof. reflexivity. Qed.

Lemma app_cons (c : ascii) (s t : string) :
  String c s +:+ t = String c (s +:+ t).
Proof. reflexivity. Qed.

Lemma app_nil_r (s : string) : s +:+ "" = s.
Proof. induction s as [|c s IH]; [done|]. by rewrite app_cons, IH. Qed.

Lemma app_assoc (s t u : string) : (s +:+ t) +:+ u = s +:+ t +:+ u.
Proof. induction s as [|c s IH]; [done|]. by rewrite !app_cons, IH. Qed.

Lemma length_app (s t : string) :
  String.length (s +:+ t) = String.length s + String.length t.
Proof. induction s as [|c s IH]; [done|]. rewrite app_cons. simpl. by rewrite IH. Qed.

Lemma substring_app_l (s t : string) :
  String.substring 0 (String.length s) (s +:+ t) = s.
Proof.
  induction s as [|c s IH]; simpl.
  - rewrite app_nil_l. by destruct t.
  - by rewrite IH.
Qed.

Lemma substring_app_r (s t : string) :
  String.substring (String.length s) (String.length t) (s +:+ t) = t.
Proof.
  induction s as [|c s IH]; simpl.
  - rewrite app_nil_l. rewrite <- (app_nil_r t) at 2. apply substring_app_l.
  - done.
Qed.

Lemma prefix_nil (s : string) : String.prefix "" s = true.
Proof. by destruct s. Qed.

(** ** [expandvars]: the matcher *)

Section matcher.
Import Posixpath.

Lemma match_here_other (c : ascii) (r : string) :
  Ascii.eqb c "$" = false → match_here (String c r) = None.
Proof. by destruct c as [[] [] [] [] [] [] [] []]. Qed.

Lemma search_cons (c : ascii) (r : string) :
  search (String c r) =
    match match_here (String c r) with
    | Some (g, tl) => Some (EmptyString, g, tl)
    | None =>
        match search r with
        | Some (pre, g, tl) => Some (String c pre, g, tl)
        | None => None
        end
    end.
Proof. reflexivity. Qed.

(** A text without [$] has no match: the loop leaves at once. *)
Lemma search_plain (s : string) : has_dollar s = false → search s = None.
Proof.
  induction s as [|c s IH]; [done|].
  simpl has_dollar. intros [Hc Hs]%orb_false_iff.
  by rewrite search_cons, match_here_other, IH.
Qed.

Lemma take_braced_app (inner tl : string) :
  has_rbrace inner = false →
  take_braced (inner +:+ String "}" tl) = Some (inner, tl).
Proof.
  induction inner as [|c inner IH]; [done|].
  simpl has_rbrace. intros [Hc Hs]%orb_false_iff.
  rewrite app_cons. simpl. by rewrite Hc, IH.
Qed.

Lemma match_here_braced (inner tl : string) :
  has_rbrace inner = false →
  match_here (String "$" (String "{" (inner +:+ String "}" tl))) =
    Some (String "{" (inner +:+ "}"), tl).
Proof. intros H. simpl. by rewrite take_braced_app. Qed.

Lemma search_braced (pre inner tl : string) :
  has_dollar pre = false → has_rbrace inner = false →
  search (pre +:+ String "$" (String "{" (inner +:+ String "}" tl))) =
    Some (pre, String "{" (inner +:+ "}"), tl).
Proof.
  intros Hpre Hin. induction pre as [|c pre IH].
  - by rewrite app_nil_l, search_cons, match_here_braced.
  - simpl in Hpre. apply orb_false_iff in Hpre as [Hc Hpre].
    by rewrite app_cons, search_cons, match_here_other, IH.
Qed.

Lemma var_name_braced (inner : string) :
  var_name (String "{" (inner +:+ "}")) = inner.
Proof.
  unfold var_name, startswith, endswith.
  replace (String.length (String "{" (inner +:+ "}")))
    with (S (S (String.length inner))).
  2:{ simpl. rewrite length_app. simpl. lia. }
  simpl. rewrite Nat.sub_0_r, prefix_nil.
  pose proof (substring_app_r inner "}") as Hr. simpl in Hr. rewrite Hr.
  simpl. pose proof (substring_app_l inner "}") as Hl. by rewrite Hl.
Qed.

Lemma expand_loop_none (fuel : nat) (environ : gmap string string)
    (done rest : string) :
  search rest = None → expand_loop fuel environ done rest = done +:+ rest.
Proof. intros H. destruct fuel; simpl; [done|]. by rewrite H. Qed.

(** The early return of [expandvars]. *)
Lemma expandvars_plain (environ : gmap string string) (path : string) :
  has_dollar path = false → expandvars environ path = path.
Proof. intros H. unfold expandvars. by rewrite H. Qed.

Lemma has_dollar_app (s t : string) :
  has_dollar (s +:+ t) = has_dollar s || has_dollar t.
Proof.
  induction s as [|c s IH]; [done|].
  rewrite app_cons. simpl. by rewrite IH, orb_assoc.
Qed.

(** A text with one reference, written with braces: the reference is
    replaced by the value of the variable when the environment has it, and
    stays as it is written when it has not. *)
Lemma expandvars_braced (environ : gmap string string)
    (pre inner tl : string) :
  has_dollar pre = false → has_rbrace inner = false → has_dollar tl = false →
  expandvars environ (pre +:+ String "$" (String "{" (inner +:+ String "}" tl))) =
    pre +:+ default (String "$" (String "{" (inner +:+ "}"))) (environ !! inner)
        +:+ tl.
Proof.
  intros Hpre Hin Htl. unfold expandvars.
  rewrite has_dollar_app. simpl has_dollar. rewrite orb_true_r.
  rewrite length_app. simpl String.length. rewrite Nat.add_succ_r.
  simpl expand_loop. rewrite search_braced, var_name_braced by done.
  destruct (environ !! inner) as [value|]; simpl;
    rewrite expand_loop_none by (by apply search_plain);
    by rewrite app_nil_l, app_assoc.
Qed.

(** *** The loop always leaves: what a match splits off *)

Lemma take_word_app (s w tl : string) :
  take_word s = (w, tl) → s = w +:+ tl.
Proof.
  revert w tl. induction s as [|c s IH]; intros w tl; simpl.
  - by intros [= <- <-].
  - destruct (is_word c).
    + destruct (take_word s) as [w' tl'] eqn:E. intros [= <- <-].
      by rewrite app_cons, <- (IH w' tl').
    + by intros [= <- <-].
Qed.

Lemma take_braced_Some (s inner tl : string) :
  take_braced s = Some (inner, tl) → s = inner +:+ String "}" tl.
Proof.
  revert inner. induction s as [|c s IH]; intros inner; simpl; [done|].
  destruct (Ascii.eqb_spec c "}") as [->|_].
  - by intros [= <- <-].
  - destruct (take_braced s) as [[inner' tl']|] eqn:E; [|done].
    intros [= <- <-]. by rewrite app_cons, <- (IH inner').
Qed.

Lemma match_here_Some (s g tl : string) :
  match_here s = Some (g, tl) → s = String "$" (g +:+ tl).
Proof.
  destruct s as [|c r]; [done|].
  destruct (Ascii.eqb c "$") eqn:Hc; [|by rewrite match_here_other].
  apply Ascii.eqb_eq in Hc as ->. simpl.
  destruct (take_word r) as [[|c' w] tl'] eqn:Hw.
  - destruct r as [|c r']; [done|].
    destruct (Ascii.eqb c "{") eqn:Hb.
    + apply Ascii.eqb_eq in Hb as ->.
      destruct (take_braced r') as [[inner tl'']|] eqn:Hr; [|done].
      intros [= <- <-]. rewrite (take_braced_Some _ _ _ Hr).
      by rewrite app_cons, app_assoc.
    + by destruct c as [[] [] [] [] [] [] [] []].
  - intros [= <- <-]. by rewrite (take_word_app _ _ _ Hw).
Qed.

Lemma search_Some (s pre g tl : string) :
  search s = Some (pre, g, tl) → s = pre +:+ String "$" (g +:+ tl).
Proof.
  revert pre. induction s as [|c s IH]; intros pre; [done|].
  rewrite search_cons.
  destruct (match_here (String c s)) as [[g' tl']|] eqn:Hm.
  - intros [= <- <- <-]. by apply match_here_Some.
  - destruct (search s) as [[[pre' g'] tl']|] eqn:Hs; [|done].
    intros [= <- <- <-]. by rewrite app_cons, <- (IH pre').
Qed.

Lemma search_shrinks (s pre g tl : string) :
  search s = Some (pre, g, tl) → String.length tl < String.length s.
Proof.
  intros ->%search_Some. rewrite length_app. simpl. rewrite length_app. lia.
Qed.

(** Fuel beyond the length of the text is never used: the loop ends by
    finding no further match, not by running out of fuel. *)
Lemma expand_loop_fuel (n m : nat) (environ : gmap string string)
    (done rest : string) :
  String.length rest ≤ n → String.length rest ≤ m →
  expand_loop n environ done rest = expand_loop m environ done rest.
Proof.
  revert m done rest. induction n as [|n IH]; intros m done rest Hn Hm.
  - destruct rest; [|simpl in Hn; lia]. by destruct m.
  - destruct m as [|m].
    + destruct rest; [done|simpl in Hm; lia].
    + simpl. destruct (search rest) as [[[pre g] tl]|] eqn:Hs; [|done].
      apply search_shrinks in Hs.
      destruct (environ !! var_name g); apply IH; lia.
Qed.

Corollary expandvars_fuel (n : nat) (environ : gmap string string)
    (path : string) :
  has_dollar path = true → String.length path ≤ n →
  expand_loop n environ "" path = expandvars environ path.
Proof.
  intros Hd Hn. unfold expandvars. rewrite Hd. by apply expand_loop_fuel.
Qed.

(** With no variable to look up every reference raises [KeyError] and the
    text comes back as it went in. *)
Lemma expand_loop_empty (fuel : nat) (done rest : string) :
  expand_loop fuel ∅ done rest = done +:+ rest.
Proof.
  revert done rest. induction fuel as [|fuel IH]; intros acc rest.
  { reflexivity. }
  simpl. destruct (search rest) as [[[pre g] tl]|] eqn:Hs; [|done].
  rewrite lookup_empty, IH. apply search_Some in Hs as ->.
  by rewrite !app_assoc, app_cons.
Qed.

Lemma expandvars_empty (path : string) : expandvars ∅ path = path.
Proof.
  unfold expandvars. destruct (has_dollar path); [|done].
  apply expand_loop_empty.
Qed.
End matcher.

(** Both spellings of a reference, a value that itself holds a reference
    (not expanded again), an unknown variable, and a lone [$]. *)
Example expandvars_mixed :
  Posixpath.expandvars {[ "A" := "x$A"; "B_1" := "" ]} "a$A/${A}b${B}$B_1-$" =
    "ax$A/x$Ab${B}-$".
Proof. vm_compute. reflexivity. Qed.

Example expandvars_unclosed :
  Posixpath.expandvars {[ "A" := "x" ]} "${A$A" = "${Ax".
Proof. vm_compute. reflexivity. Qed.

(** ** The five texts the script expands *)

Lemma expandvars_include (environ : gmap string string) :
  Posixpath.expandvars environ "-I${CMAKE_SOURCE_DIR}/include" =
    "-I" +:+ default "${CMAKE_SOURCE_DIR}" (environ !! "CMAKE_SOURCE_DIR")
         +:+ "/include".
Proof.
  exact (expandvars_braced environ "-I" "CMAKE_SOURCE_DIR" "/include"
           eq_refl eq_refl eq_refl).
Qed.

Lemma expandvars_rpath (environ : gmap string string) :
  Posixpath.expandvars environ "-Wl,${CMAKE_PREFIX}/lib" =
    "-Wl," +:+ default "${CMAKE_PREFIX}" (environ !! "CMAKE_PREFIX") +:+ "/lib".
Proof.
  exact (expandvars_braced environ "-Wl," "CMAKE_PREFIX" "/lib"
           eq_refl eq_refl eq_refl).
Qed.

(** ** Lines 36-37: the environment *)

Lemma lookup_configure_CC (environ0 : gmap string string) :
  configure environ0 !! "CC" = Some "clang".
Proof.
  unfold configure, setdefault, setitem.
  destruct (<["CC":="clang"]> environ0 !! "DESTDIR");
    [|rewrite lookup_insert_ne by done]; apply lookup_insert_eq.
Qed.

Lemma lookup_configure_DESTDIR (environ0 : gmap string string) :
  configure environ0 !! "DESTDIR" = Some (default "/" (environ0 !! "DESTDIR")).
Proof.
  unfold configure, setdefault, setitem.
  rewrite lookup_insert_ne by done.
  destruct (environ0 !! "DESTDIR") as [d|] eqn:E; simpl.
  - by rewrite lookup_insert_ne.
  - apply lookup_insert_eq.
Qed.

Lemma lookup_configure_other (k : string) (environ0 : gmap string string) :
  k ≠ "CC" → k ≠ "DESTDIR" → configure environ0 !! k = environ0 !! k.
Proof.
  intros Hcc Hdest. unfold configure, setdefault, setitem.
  destruct (<["CC":="clang"]> environ0 !! "DESTDIR");
    by rewrite !lookup_insert_ne.
Qed.

(** ** Lines 38-51: the flag lists *)

Lemma run_environ (environ0 : gmap string string) :
  environ (run environ0) = configure environ0.
Proof. unfold run. by destruct (contains _ _). Qed.

Lemma run_unset (environ0 : gmap string string) :
  environ0 !! "CMAKE_SOURCE_DIR" = None →
  run environ0 =
    {| environ := configure environ0;
       cflags := cflags_base;
       ldflags := ldflags_base |}.
Proof.
  intros H. unfold run, contains.
  by rewrite lookup_configure_other, H.
Qed.

Lemma run_set (environ0 : gmap string string) (dir : string) :
  environ0 !! "CMAKE_SOURCE_DIR" = Some dir →
  run environ0 =
    {| environ := configure environ0;
       cflags := cflags_base ++
         ["-I" +:+ dir +:+ "/include"; "-I../../include/"];
       ldflags := ldflags_base ++
         ["-L../.."; "-Wl,-rpath";
          "-Wl," +:+ default "${CMAKE_PREFIX}" (environ0 !! "CMAKE_PREFIX")
                 +:+ "/lib"] |}.
Proof.
  intros H. unfold run, contains.
  rewrite expandvars_include, expandvars_rpath.
  rewrite !lookup_configure_other, H by done. simpl default.
  by rewrite !expandvars_plain.
Qed.

(** ** The claims *)

(** C1: when [CMAKE_SOURCE_DIR] is not set, the extension is given the
    compile flags [-fblocks], [-Wno-sometimes-uninitialized] and the link
    flags [-g], [-lpersist], [-lrpc], in that order and nothing else,
    whatever the rest of the environment holds ([CMAKE_PREFIX] and [DESTDIR]
    among it). *)
Theorem flags_without_source_dir (environ0 : gmap string string) :
  environ0 !! "CMAKE_SOURCE_DIR" = None →
  compile_flags environ0 = ["-fblocks"; "-Wno-sometimes-uninitialized"] ∧
  link_flags environ0 = ["-g"; "-lpersist"; "-lrpc"].
Proof. intros H. unfold compile_flags, link_flags. by rewrite run_unset. Qed.

Lemma flags_without_source_dir_witness :
  env_plain !! "CMAKE_SOURCE_DIR" = None ∧
  compile_flags env_plain = ["-fblocks"; "-Wno-sometimes-uninitialized"] ∧
  link_flags env_plain = ["-g"; "-lpersist"; "-lrpc"].
Proof.
  assert (env_plain !! "CMAKE_SOURCE_DIR" = None) as Hdir
    by (vm_compute; reflexivity).
  split; [exact Hdir|]. exact (flags_without_source_dir env_plain Hdir).
Defined.

(** C2: when [CMAKE_SOURCE_DIR] is set, to [dir], the compile flags are the
    base list followed by [-I<dir>/include] and [-I../../include/], and the
    link flags are the base list followed by [-L../..], [-Wl,-rpath] and
    [-Wl,<CMAKE_PREFIX>/lib], where [<CMAKE_PREFIX>] stands for the value of
    that variable, and for the reference as it is written when the variable
    is not set; when [CMAKE_SOURCE_DIR] is not set the lists are the base
    lists, so no environment adds any other flag. *)
Theorem flags_with_source_dir (environ0 : gmap string string) :
  (∀ dir, environ0 !! "CMAKE_SOURCE_DIR" = Some dir →
     compile_flags environ0 =
       cflags_base ++ ["-I" +:+ dir +:+ "/include"; "-I../../include/"] ∧
     link_flags environ0 =
       ldflags_base ++
         ["-L../.."; "-Wl,-rpath";
          "-Wl," +:+ default "${CMAKE_PREFIX}" (environ0 !! "CMAKE_PREFIX")
                 +:+ "/lib"]) ∧
  (environ0 !! "CMAKE_SOURCE_DIR" = None →
     compile_flags environ0 = cflags_base ∧ link_flags environ0 = ldflags_base).
Proof.
  split.
  - intros dir H. unfold compile_flags, link_flags. by rewrite (run_set _ dir).
  - intros H. unfold compile_flags, link_flags. by rewrite run_unset.
Qed.

Lemma flags_with_source_dir_witness :
  env_cmake !! "CMAKE_SOURCE_DIR" = Some "/src/libpersist" ∧
  compile_flags env_cmake =
    ["-fblocks"; "-Wno-sometimes-uninitialized";
     "-I/src/libpersist/include"; "-I../../include/"] ∧
  link_flags env_cmake =
    ["-g"; "-lpersist"; "-lrpc"; "-L../.."; "-Wl,-rpath";
     "-Wl,/usr/local/lib"].
Proof.
  assert (env_cmake !! "CMAKE_SOURCE_DIR" = Some "/src/libpersist") as Hdir
    by (vm_compute; reflexivity).
  split; [exact Hdir|].
  exact (proj1 (flags_with_source_dir env_cmake) _ Hdir).
Defined.

(** C3: in every environment the call of [setup] declares exactly one
    extension module; its name is [persist] and its only source is the
    interface file [persist.pyx]. *)
Theorem one_extension_persist (environ0 : gmap string string) :
  length (declared environ0) = 1 ∧
  ext_name <$> declared environ0 = ["persist"] ∧
  ext_sources <$> declared environ0 = [["persist.pyx"]].
Proof. done. Qed.

(** C4: in every environment the script leaves [CC] set to [clang], whatever
    [CC] was before. *)
Theorem cc_is_clang (environ0 : gmap string string) :
  final_environ environ0 !! "CC" = Some "clang".
Proof.
  unfold final_environ, script. simpl.
  rewrite run_environ. apply lookup_configure_CC.
Qed.

(** C5: in every environment, [CMAKE_SOURCE_DIR] and [CMAKE_PREFIX] set or
    not, the link flags given to the extension contain [-lpersist] and
    [-lrpc]. *)
Theorem links_persist_and_rpc (environ0 : gmap string string) :
  "-lpersist" ∈ link_flags environ0 ∧ "-lrpc" ∈ link_flags environ0.
Proof.
  unfold link_flags.
  destruct (environ0 !! "CMAKE_SOURCE_DIR") as [dir|] eqn:E.
  - rewrite (run_set _ dir) by done. simpl. set_solver.
  - rewrite run_unset by done. simpl. set_solver.
Qed.

(** C6: after lines 36-37 [DESTDIR] is set: to [/] when it was not set
    before, and to the value it had when it was. *)
Theorem destdir_defaults_to_root (environ0 : gmap string string) :
  is_Some (configure environ0 !! "DESTDIR") ∧
  (environ0 !! "DESTDIR" = None → configure environ0 !! "DESTDIR" = Some "/") ∧
  (∀ d, environ0 !! "DESTDIR" = Some d →
        configure environ0 !! "DESTDIR" = Some d).
Proof.
  rewrite lookup_configure_DESTDIR. split; [done|].
  split; [by intros ->|by intros d ->].
Qed.

Lemma destdir_defaults_to_root_witness :
  configure ∅ !! "DESTDIR" = Some "/" ∧
  configure {[ "DESTDIR" := "/tmp/stage" ]} !! "DESTDIR" = Some "/tmp/stage".
Proof.
  split.
  - apply (proj1 (proj2 (destdir_defaults_to_root ∅))). reflexivity.
  - apply (proj2 (proj2 (destdir_defaults_to_root {[ "DESTDIR" := "/tmp/stage" ]}))).
    vm_compute. reflexivity.
Defined.

(** C7: two environments that differ only in [CMAKE_PREFIX] (its value, or
    whether it is set) give the same compile flags, and link flags that are
    equal or share everything but their last entry, the entry
    [-Wl,<CMAKE_PREFIX>/lib]; when [CMAKE_SOURCE_DIR] is not set, both lists
    are the same. *)
Theorem prefix_touches_one_link_flag (e1 e2 : gmap string string) :
  differ_only_at "CMAKE_PREFIX" e1 e2 →
  compile_flags e1 = compile_flags e2 ∧
  (link_flags e1 = link_flags e2 ∨
   ∃ common,
     link_flags e1 =
       common ++ ["-Wl," +:+ default "${CMAKE_PREFIX}" (e1 !! "CMAKE_PREFIX")
                         +:+ "/lib"] ∧
     link_flags e2 =
       common ++ ["-Wl," +:+ default "${CMAKE_PREFIX}" (e2 !! "CMAKE_PREFIX")
                         +:+ "/lib"]) ∧
  (e1 !! "CMAKE_SOURCE_DIR" = None →
   compile_flags e1 = compile_flags e2 ∧ link_flags e1 = link_flags e2).
Proof.
  intros Hdiff.
  assert (e1 !! "CMAKE_SOURCE_DIR" = e2 !! "CMAKE_SOURCE_DIR") as Hdir
    by (by apply Hdiff).
  unfold compile_flags, link_flags.
  destruct (e1 !! "CMAKE_SOURCE_DIR") as [dir|] eqn:E1; symmetry in Hdir.
  - rewrite (run_set e1 dir), (run_set e2 dir) by done. simpl.
    split; [done|]. split; [|done]. right.
    by exists ["-g"; "-lpersist"; "-lrpc"; "-L../.."; "-Wl,-rpath"].
  - rewrite (run_unset e1), (run_unset e2) by done. simpl. auto.
Qed.

Lemma prefix_touches_one_link_flag_witness :
  differ_only_at "CMAKE_PREFIX" env_no_prefix env_cmake ∧
  compile_flags env_no_prefix = compile_flags env_cmake ∧
  (link_flags env_no_prefix = link_flags env_cmake ∨
   ∃ common,
     link_flags env_no_prefix = common ++ ["-Wl,${CMAKE_PREFIX}/lib"] ∧
     link_flags env_cmake = common ++ ["-Wl,/usr/local/lib"]).
Proof.
  assert (differ_only_at "CMAKE_PREFIX" env_no_prefix env_cmake) as Hdiff.
  { intros k Hk. unfold env_no_prefix, env_cmake.
    destruct (decide (k = "CMAKE_SOURCE_DIR")) as [->|Hdir].
    - vm_compute. reflexivity.
    - by rewrite lookup_insert_ne, !lookup_singleton_ne. }
  split; [exact Hdiff|].
  destruct (prefix_touches_one_link_flag _ _ Hdiff) as (Hc & Hl & _).
  split; [exact Hc|exact Hl].
Defined.

(** C8: when [CMAKE_SOURCE_DIR] is set and [CMAKE_PREFIX] is not, the last
    link flag is the text [-Wl,${CMAKE_PREFIX}/lib] as the script writes it:
    the reference is neither dropped nor replaced by the empty text. *)
Theorem unset_prefix_stays_verbatim (environ0 : gmap string string) :
  is_Some (environ0 !! "CMAKE_SOURCE_DIR") →
  environ0 !! "CMAKE_PREFIX" = None →
  last (link_flags environ0) = Some "-Wl,${CMAKE_PREFIX}/lib" ∧
  ("-Wl,/lib" ∉ link_flags environ0) ∧
  length (link_flags environ0) = 6.
Proof.
  intros [dir Hdir] Hprefix. unfold link_flags.
  rewrite (run_set _ dir), Hprefix by done. simpl.
  split; [done|]. split; [|done].
  rewrite !not_elem_of_cons. repeat split; try done. apply not_elem_of_nil.
Qed.

Lemma unset_prefix_stays_verbatim_witness :
  is_Some (env_no_prefix !! "CMAKE_SOURCE_DIR") ∧
  env_no_prefix !! "CMAKE_PREFIX" = None ∧
  last (link_flags env_no_prefix) = Some "-Wl,${CMAKE_PREFIX}/lib".
Proof.
  assert (is_Some (env_no_prefix !! "CMAKE_SOURCE_DIR")) as Hdir
    by (vm_compute; eauto).
  assert (env_no_prefix !! "CMAKE_PREFIX" = None) as Hprefix
    by (vm_compute; reflexivity).
  split; [exact Hdir|]. split; [exact Hprefix|].
  exact (proj1 (unset_prefix_stays_verbatim env_no_prefix Hdir Hprefix)).
Defined.

(** C9: the five extra flags hang on whether [CMAKE_SOURCE_DIR] is a key of
    the environment, not on its value: whenever it is set two compile flags
    and three link flags follow the base lists, whenever it is not set none
    does, and with the empty text as its value the first of them is
    [-I/include]. *)
Theorem source_dir_presence_decides (environ0 : gmap string string) :
  (is_Some (environ0 !! "CMAKE_SOURCE_DIR") →
   ∃ i1 i2 l1 l2 l3,
     compile_flags environ0 = cflags_base ++ [i1; i2] ∧
     link_flags environ0 = ldflags_base ++ [l1; l2; l3]) ∧
  (environ0 !! "CMAKE_SOURCE_DIR" = None →
   compile_flags environ0 = cflags_base ∧ link_flags environ0 = ldflags_base) ∧
  (environ0 !! "CMAKE_SOURCE_DIR" = Some "" →
   compile_flags environ0 =
     cflags_base ++ ["-I/include"; "-I../../include/"] ∧
   link_flags environ0 =
     ldflags_base ++
       ["-L../.."; "-Wl,-rpath";
        "-Wl," +:+ default "${CMAKE_PREFIX}" (environ0 !! "CMAKE_PREFIX")
               +:+ "/lib"]).
Proof.
  unfold compile_flags, link_flags. repeat split.
  - intros [dir Hdir]. rewrite (run_set _ dir) by done. simpl. eauto 10.
  - by rewrite run_unset.
  - by rewrite run_unset.
  - by rewrite (run_set _ "").
  - by rewrite (run_set _ "").
Qed.

Lemma source_dir_presence_decides_witness :
  env_empty_dir !! "CMAKE_SOURCE_DIR" = Some "" ∧
  compile_flags env_empty_dir =
    ["-fblocks"; "-Wno-sometimes-uninitialized";
     "-I/include"; "-I../../include/"] ∧
  link_flags env_empty_dir =
    ["-g"; "-lpersist"; "-lrpc"; "-L../.."; "-Wl,-rpath";
     "-Wl,${CMAKE_PREFIX}/lib"].
Proof.
  assert (env_empty_dir !! "CMAKE_SOURCE_DIR" = Some "") as Hdir
    by (vm_compute; reflexivity).
  split; [exact Hdir|].
  exact (proj2 (proj2 (source_dir_presence_decides env_empty_dir)) Hdir).
Defined.

(** C10: lines 36-37 write [CC] and [DESTDIR] and nothing else: every other
    variable, [CMAKE_SOURCE_DIR] and [CMAKE_PREFIX] among them, has after
    them, and when the script calls [setup], the value (or the absence) it
    had before. *)
Theorem only_cc_and_destdir_written (environ0 : gmap string string) (k : string) :
  k ≠ "CC" → k ≠ "DESTDIR" →
  configure environ0 !! k = environ0 !! k ∧
  final_environ environ0 !! k = environ0 !! k.
Proof.
  intros Hcc Hdest. unfold final_environ, script. simpl.
  rewrite run_environ. split; by apply lookup_configure_other.
Qed.

Lemma only_cc_and_destdir_written_witness :
  "CMAKE_PREFIX" ≠ "CC" ∧ "CMAKE_PREFIX" ≠ "DESTDIR" ∧
  configure env_cmake !! "CMAKE_PREFIX" = Some "/usr/local" ∧
  final_environ env_cmake !! "CMAKE_PREFIX" = Some "/usr/local".
Proof.
  assert ("CMAKE_PREFIX" ≠ "CC") as Hcc by discriminate.
  assert ("CMAKE_PREFIX" ≠ "DESTDIR") as Hdest by discriminate.
  split; [exact Hcc|]. split; [exact Hdest|].
  exact (only_cc_and_destdir_written env_cmake "CMAKE_PREFIX" Hcc Hdest).
Defined.

(** ** Further properties of lines 36-37 *)

Lemma run_of_configure (e1 e2 : gmap string string) :
  configure e1 = configure e2 → run e1 = run e2.
Proof. intros H. unfold run. by rewrite H. Qed.

Lemma lookup_configure (k : string) (environ0 : gmap string string) :
  configure environ0 !! k =
    if decide (k = "CC") then Some "clang"
    else if decide (k = "DESTDIR")
         then Some (default "/" (environ0 !! "DESTDIR"))
         else environ0 !! k.
Proof.
  destruct (decide (k = "CC")) as [->|Hcc]; [apply lookup_configure_CC|].
  destruct (decide (k = "DESTDIR")) as [->|Hdest];
    [apply lookup_configure_DESTDIR|].
  by apply lookup_configure_other.
Qed.

(** X1: running lines 36-37 a second time changes nothing: the environment
    they leave is a fixed point of them. *)
Theorem configure_idempotent (environ0 : gmap string string) :
  configure (configure environ0) = configure environ0.
Proof.
  apply map_eq. intros k. rewrite !lookup_configure.
  by repeat case_decide.
Qed.

(** X2: lines 36-37 leave the environment as it was exactly when [CC] was
    already [clang] and [DESTDIR] was already set. *)
Theorem configure_unchanged_iff (environ0 : gmap string string) :
  configure environ0 = environ0 ↔
  environ0 !! "CC" = Some "clang" ∧ is_Some (environ0 !! "DESTDIR").
Proof.
  split.
  - intros H. split.
    + rewrite <- H. apply lookup_configure_CC.
    + rewrite <- H. rewrite lookup_configure_DESTDIR. eauto.
  - intros [Hcc [d Hd]]. apply map_eq. intros k. rewrite lookup_configure.
    repeat case_decide; subst; try done. by rewrite Hd.
Qed.

(** X3: the script removes no variable and adds at most [CC] and [DESTDIR]:
    the variables set when it calls [setup] are those set at its start
    together with these two. *)
Theorem final_environ_dom (environ0 : gmap string string) :
  dom (final_environ environ0) = {[ "CC"; "DESTDIR" ]} ∪ dom environ0.
Proof.
  unfold final_environ, script. simpl. rewrite run_environ.
  apply set_eq. intros k.
  rewrite !elem_of_union, !elem_of_singleton, !elem_of_dom, lookup_configure.
  destruct (decide (k = "CC")) as [Hcc|Hcc]; [split; eauto|].
  destruct (decide (k = "DESTDIR")) as [Hdest|Hdest]; [split; eauto|].
  split; [by auto|]. by intros [[?|?]|?].
Qed.

(** X4: the compiler the caller had chosen leaves no trace: two environments
    that differ only in [CC] give the same environment after the script and
    the same call of [setup]. *)
Theorem cc_choice_is_erased (e1 e2 : gmap string string) :
  differ_only_at "CC" e1 e2 → script e1 = script e2.
Proof.
  intros Hdiff. unfold script.
  rewrite (run_of_configure e1 e2); [done|].
  apply map_eq. intros k. rewrite !lookup_configure.
  repeat case_decide; subst; try done.
  - by rewrite (Hdiff "DESTDIR").
  - by apply Hdiff.
Qed.

Lemma cc_choice_is_erased_witness :
  differ_only_at "CC" env_cmake (<["CC" := "gcc"]> env_cmake) ∧
  script env_cmake = script (<["CC" := "gcc"]> env_cmake).
Proof.
  assert (differ_only_at "CC" env_cmake (<["CC" := "gcc"]> env_cmake)) as Hdiff.
  { intros k Hk. by rewrite lookup_insert_ne. }
  split; [exact Hdiff|]. exact (cc_choice_is_erased _ _ Hdiff).
Defined.

(** X5: the script run again in the environment it has left makes the same
    call of [setup] and leaves that environment as it is. *)
Theorem script_rerun (environ0 : gmap string string) :
  script (final_environ environ0) = script environ0.
Proof.
  unfold final_environ. unfold script at 2. simpl. rewrite run_environ.
  unfold script. by rewrite (run_of_configure _ _ (configure_idempotent environ0)).
Qed.

(** ** Further properties of lines 38-67 *)

Lemma app_inv_tail (s t u : string) : s +:+ u = t +:+ u → s = t.
Proof.
  revert t. induction s as [|c s IH]; intros [|c' t] H; try done.
  - apply (f_equal String.length) in H.
    rewrite app_nil_l, length_app in H. simpl in H. lia.
  - apply (f_equal String.length) in H.
    rewrite app_nil_l, length_app in H. simpl in H. lia.
  - rewrite !app_cons in H. injection H as -> H. f_equal. by apply IH.
Qed.

Lemma app_inv_both (p s t u : string) : p +:+ s +:+ u = p +:+ t +:+ u → s = t.
Proof. intros H. apply (inj (String.app p)) in H. by apply app_inv_tail in H. Qed.

(** X6: the call of [setup] depends on the environment through
    [CMAKE_SOURCE_DIR] and [CMAKE_PREFIX] alone: two environments that agree
    on these two variables give the same call, whatever else they hold
    ([CC] and [DESTDIR] among it). *)
Theorem setup_call_reads_two_variables (e1 e2 : gmap string string) :
  e1 !! "CMAKE_SOURCE_DIR" = e2 !! "CMAKE_SOURCE_DIR" →
  e1 !! "CMAKE_PREFIX" = e2 !! "CMAKE_PREFIX" →
  snd (script e1) = snd (script e2).
Proof.
  intros Hdir Hprefix. unfold script, setup_call, extension. simpl.
  destruct (e1 !! "CMAKE_SOURCE_DIR") as [dir|] eqn:E1; symmetry in Hdir.
  - by rewrite (run_set e1 dir), (run_set e2 dir), Hprefix.
  - by rewrite (run_unset e1), (run_unset e2).
Qed.

Lemma setup_call_reads_two_variables_witness :
  env_cmake !! "CMAKE_SOURCE_DIR" =
    <["DESTDIR" := "/tmp/stage"]> env_cmake !! "CMAKE_SOURCE_DIR" ∧
  env_cmake !! "CMAKE_PREFIX" =
    <["DESTDIR" := "/tmp/stage"]> env_cmake !! "CMAKE_PREFIX" ∧
  snd (script env_cmake) = snd (script (<["DESTDIR" := "/tmp/stage"]> env_cmake)).
Proof.
  assert (env_cmake !! "CMAKE_SOURCE_DIR" =
          <["DESTDIR" := "/tmp/stage"]> env_cmake !! "CMAKE_SOURCE_DIR") as Hdir
    by (vm_compute; reflexivity).
  assert (env_cmake !! "CMAKE_PREFIX" =
          <["DESTDIR" := "/tmp/stage"]> env_cmake !! "CMAKE_PREFIX") as Hprefix
    by (vm_compute; reflexivity).
  split; [exact Hdir|]. split; [exact Hprefix|].
  exact (setup_call_reads_two_variables _ _ Hdir Hprefix).
Defined.

(** X7: the compile flags determine, and are determined by, whether
    [CMAKE_SOURCE_DIR] is set and which value it has: two environments give
    the same compile flags exactly when they agree on that variable. *)
Theorem compile_flags_eq_iff (e1 e2 : gmap string string) :
  compile_flags e1 = compile_flags e2 ↔
  e1 !! "CMAKE_SOURCE_DIR" = e2 !! "CMAKE_SOURCE_DIR".
Proof.
  unfold compile_flags.
  destruct (e1 !! "CMAKE_SOURCE_DIR") as [d1|] eqn:E1;
    destruct (e2 !! "CMAKE_SOURCE_DIR") as [d2|] eqn:E2;
    rewrite ?(run_set e1 d1), ?(run_set e2 d2), ?(run_unset e1), ?(run_unset e2)
      by done; simpl; split; try done.
  - intros [= H]. by apply app_inv_both in H as ->.
  - by intros [= ->].
Qed.

(** X8: the link flags show whether [CMAKE_SOURCE_DIR] is set, not its
    value, and, when it is set, what the reference to [CMAKE_PREFIX] expands
    to; they show nothing else of the environment. *)
Theorem link_flags_eq_iff (e1 e2 : gmap string string) :
  link_flags e1 = link_flags e2 ↔
  (is_Some (e1 !! "CMAKE_SOURCE_DIR") ↔ is_Some (e2 !! "CMAKE_SOURCE_DIR")) ∧
  (is_Some (e1 !! "CMAKE_SOURCE_DIR") →
   default "${CMAKE_PREFIX}" (e1 !! "CMAKE_PREFIX") =
   default "${CMAKE_PREFIX}" (e2 !! "CMAKE_PREFIX")).
Proof.
  unfold link_flags.
  destruct (e1 !! "CMAKE_SOURCE_DIR") as [d1|] eqn:E1;
    destruct (e2 !! "CMAKE_SOURCE_DIR") as [d2|] eqn:E2;
    rewrite ?(run_set e1 d1), ?(run_set e2 d2), ?(run_unset e1), ?(run_unset e2)
      by done; simpl; split.
  - intros [= H]. apply app_inv_both in H. by rewrite H.
  - intros [_ H]. by rewrite H.
  - done.
  - intros [[H _] _]. by destruct H.
  - done.
  - intros [[_ H] _]. by destruct H.
  - intros _. split; [done|]. by intros [? ?].
  - done.
Qed.

(** X9: every argument the extension is given is an option: in every
    environment each compile flag and each link flag begins with [-],
    whatever the values of the variables that are spliced in. *)
Theorem flags_are_options (environ0 : gmap string string) :
  Forall (λ flag, Posixpath.startswith "-" flag = true)
    (compile_flags environ0 ++ link_flags environ0).
Proof.
  unfold compile_flags, link_flags, Posixpath.startswith.
  destruct (environ0 !! "CMAKE_SOURCE_DIR") as [dir|] eqn:E.
  - rewrite (run_set _ dir) by done. simpl.
    repeat (apply Forall_cons; split; [by rewrite ?app_cons; simpl; rewrite ?prefix_nil|]).
    apply Forall_nil_2.
  - rewrite run_unset by done. simpl.
    repeat (apply Forall_cons; split; [done|]). apply Forall_nil_2.
Qed.

(** ** Further properties of [expandvars], lines 44-50 *)

Section expansion.
Import Posixpath.

(** What the loop has written stays in front of what it writes next. *)
Lemma expand_loop_acc (fuel : nat) (environ : gmap string string)
    (acc rest : string) :
  expand_loop fuel environ acc rest = acc +:+ expand_loop fuel environ "" rest.
Proof.
  revert acc rest. induction fuel as [|fuel IH]; intros acc rest.
  { reflexivity. }
  simpl. destruct (search rest) as [[[pre g] tl]|]; [|done].
  destruct (environ !! var_name g) as [value|].
  - rewrite IH, (IH ("" +:+ pre +:+ value)). by rewrite app_nil_l, !app_assoc.
  - rewrite IH, (IH ("" +:+ pre +:+ String "$" g)).
    by rewrite app_nil_l, !app_assoc.
Qed.

Lemma expand_loop_expandvars (n : nat) (environ : gmap string string)
    (path : string) :
  String.length path ≤ n → expand_loop n environ "" path = expandvars environ path.
Proof.
  intros Hn. destruct (has_dollar path) eqn:Hd.
  - by apply expandvars_fuel.
  - rewrite expand_loop_none by (by apply search_plain).
    by rewrite expandvars_plain.
Qed.

Lemma take_word_all (w tl : string) :
  all_word w = true → word_ends tl = true → take_word (w +:+ tl) = (w, tl).
Proof.
  intros Hw Htl. induction w as [|c w IH].
  - rewrite app_nil_l. destruct tl as [|c tl]; [done|].
    simpl in *. by apply negb_true_iff in Htl as ->.
  - simpl in Hw. apply andb_true_iff in Hw as [Hc Hw].
    rewrite app_cons. simpl. by rewrite Hc, IH.
Qed.

Lemma match_here_simple (w tl : string) :
  w ≠ "" → all_word w = true → word_ends tl = true →
  match_here (String "$" (w +:+ tl)) = Some (w, tl).
Proof.
  intros Hne Hw Htl. simpl. rewrite take_word_all by done.
  by destruct w.
Qed.

Lemma search_simple (pre w tl : string) :
  has_dollar pre = false → w ≠ "" → all_word w = true → word_ends tl = true →
  search (pre +:+ String "$" (w +:+ tl)) = Some (pre, w, tl).
Proof.
  intros Hpre Hne Hw Htl. induction pre as [|c pre IH].
  - by rewrite app_nil_l, search_cons, match_here_simple.
  - simpl in Hpre. apply orb_false_iff in Hpre as [Hc Hpre].
    by rewrite app_cons, search_cons, match_here_other, IH.
Qed.

Lemma var_name_word (w : string) : all_word w = true → var_name w = w.
Proof.
  intros Hw. unfold var_name, startswith.
  destruct w as [|c w]; [done|].
  simpl in Hw. apply andb_true_iff in Hw as [Hc _].
  revert Hc. by destruct c as [[] [] [] [] [] [] [] []].
Qed.

(** X10: with no variable set, [expandvars] gives back every text as it is,
    well-formed references, unclosed braces and lone [$] alike. *)
Theorem expandvars_no_variables (path : string) : expandvars ∅ path = path.
Proof.
  unfold expandvars. destruct (has_dollar path); [|done].
  apply expand_loop_empty.
Qed.



(** X12: a braced reference after a text without [$] is replaced by the
    value of the variable, or left as written when the variable is not
    set; the value is not expanded again, and the text after the reference
    is expanded on its own. *)
Theorem expandvars_braced_first (environ : gmap string string)
    (pre inner tl : string) :
  has_dollar pre = false → has_rbrace inner = false →
  expandvars environ (pre +:+ String "$" (String "{" (inner +:+ String "}" tl))) =
    pre +:+ default (String "$" (String "{" (inner +:+ "}"))) (environ !! inner)
        +:+ expandvars environ tl.
Proof.
  intros Hpre Hin. unfold expandvars at 1.
  rewrite has_dollar_app. simpl has_dollar. rewrite orb_true_r.
  rewrite length_app. simpl String.length. rewrite Nat.add_succ_r.
  simpl expand_loop. rewrite search_braced, var_name_braced by done.
  assert (String.length tl ≤
          String.length pre + S (String.length (inner +:+ String "}" tl))) as Hn
    by (rewrite length_app; simpl; lia).
  destruct (environ !! inner) as [value|]; simpl;
    rewrite expand_loop_acc, expand_loop_expandvars by done;
    by rewrite app_nil_l, app_assoc.
Qed.

Lemma expandvars_braced_first_witness :
  has_dollar "-I" = false ∧ has_rbrace "A" = false ∧
  expandvars {[ "A" := "$B"; "B" := "b" ]} "-I${A}/${B}/$C" = "-I$B/b/$C".
Proof.
  assert (has_dollar "-I" = false) as Hpre by reflexivity.
  assert (has_rbrace "A" = false) as Hin by reflexivity.
  split; [exact Hpre|]. split; [exact Hin|].
  exact (eq_trans
    (expandvars_braced_first {[ "A" := "$B"; "B" := "b" ]} "-I" "A" "/${B}/$C"
       Hpre Hin)
    ltac:(vm_compute; reflexivity)).
Defined.

(** X13: a reference without braces, [$] followed by a name of letters,
    digits and underscores that ends at the end of the text or at any other
    character, behaves in the same way: replaced by the value or left as
    written, and the rest expanded on its own. *)
Theorem expandvars_simple_first (environ : gmap string string)
    (pre w tl : string) :
  has_dollar pre = false → w ≠ "" → all_word w = true → word_ends tl = true →
  expandvars environ (pre +:+ String "$" (w +:+ tl)) =
    pre +:+ default (String "$" w) (environ !! w) +:+ expandvars environ tl.
Proof.
  intros Hpre Hne Hw Htl. unfold expandvars at 1.
  rewrite has_dollar_app. simpl has_dollar. rewrite orb_true_r.
  rewrite length_app. simpl String.length. rewrite Nat.add_succ_r.
  simpl expand_loop. rewrite search_simple, var_name_word by done.
  assert (String.length tl ≤ String.length pre + String.length (w +:+ tl)) as Hn
    by (rewrite length_app; lia).
  destruct (environ !! w) as [value|]; simpl;
    rewrite expand_loop_acc, expand_loop_expandvars by done;
    by rewrite app_nil_l, app_assoc.
Qed.

Lemma expandvars_simple_first_witness :
  has_dollar "-L" = false ∧ "HOME_1" ≠ "" ∧ all_word "HOME_1" = true ∧
  word_ends "/lib:$X" = true ∧
  expandvars {[ "HOME_1" := "/h" ]} "-L$HOME_1/lib:$X" = "-L/h/lib:$X".
Proof.
  assert (has_dollar "-L" = false) as Hpre by reflexivity.
  assert ("HOME_1" ≠ "") as Hne by discriminate.
  assert (all_word "HOME_1" = true) as Hw by reflexivity.
  assert (word_ends "/lib:$X" = true) as Htl by reflexivity.
  split; [exact Hpre|]. split; [exact Hne|]. split; [exact Hw|].
  split; [exact Htl|].
  exact (eq_trans
    (expandvars_simple_first {[ "HOME_1" := "/h" ]} "-L" "HOME_1" "/lib:$X"
       Hpre Hne Hw Htl)
    ltac:(vm_compute; reflexivity)).
Defined.
End expansion.
